(** * Search, sort and pagination of the data grid (src/app/app.component.ts)

    A shallow embedding of [AppComponent]: the record type [DataType], the
    mutable fields of the component as a state record, and its methods
    ([searchData], [nextPage], [previousPage], [jumpToPage],
    [updateDisplayedData], [sortData]) as computations in a state monad.

    Modelling conventions.
    - JavaScript numbers that the component manipulates (prices, page
      indices, array lengths) are integers far below 2^53; they are
      modelled as [Z].  [NaN], which [Number(...)] may produce in
      [jumpToPage], is kept as a separate constructor.  A page number with
      a fractional part, which [Number(...)] can also produce, is not
      represented: every statement about page indices is about integer
      page indices.
    - JavaScript strings are modelled as [string]: the sequence of the
      code units of the string, each below 256 (Basic Latin and Latin-1
      Supplement).  On these, [toLowerCase] maps A-Z and the Latin-1
      capitals to their small letters, one code unit at a time.  What a
      search matches is stated with a table of letter pairs and with a
      valuation of decimal numerals, neither of which refers to
      [toLowerCase] or [toString].
    - [String.prototype.localeCompare] depends on the host locale: it is a
      parameter of the development.  The dataset [DATA] (module ./data) is a
      parameter as well.
    - [Array.prototype.sort] is stable (ECMAScript 2019); it is modelled by
      a stable insertion sort, which computes the unique result the
      standard allows whenever the comparator is consistent. *)

From Stdlib Require Import ZArith QArith Qround List String Ascii Bool Lia.
From Stdlib Require Import Sorted Permutation DecimalString.
From Stdlib Require DecimalFacts DecimalPos.
From Stdlib Require OrdersEx.
From ExtLib Require Import Structures.Monad Structures.MonadState.
From ExtLib Require Import Data.Monads.StateMonad.
Import ListNotations.
Import MonadNotation.

Local Open Scope string_scope.
Local Open Scope monad_scope.
Local Open Scope Z_scope.

(** ** JavaScript strings *)

Module JsString.

(** One character of [toLowerCase]: 'A'..'Z' (65..90) go to 'a'..'z', and
    the capitals of the Latin-1 Supplement (192..222, the multiplication
    sign 215 apart) go to their small letters, 32 code units up. *)
Definition lowerChar (c : ascii) : ascii :=
  let n := nat_of_ascii c in
  if (((65 <=? n) && (n <=? 90))
      || ((192 <=? n) && (n <=? 222) && negb (n =? 215)))%nat
  then ascii_of_nat (n + 32) else c.

Fixpoint toLowerCase (s : string) : string :=
  match s with
  | EmptyString => EmptyString
  | String c s' => String (lowerChar c) (toLowerCase s')
  end.

(** [includes s t] is [s.includes(t)]: [t] occurs in [s] at some index. *)
Fixpoint includes (s t : string) : bool :=
  String.prefix t s
  || match s with
     | EmptyString => false
     | String _ s' => includes s' t
     end.

(** Declarative counterparts, used to state what a search matches. *)

(** [t] is a literal substring of [s]. *)
Definition Substring (t s : string) : Prop :=
  exists pre post, s = pre ++ t ++ post.

(** The capital letters and, in the same order, their small letters: the
    26 letters of the alphabet, then the accented letters of Latin-1
    (A-grave to O-diaeresis, O-stroke to Thorn). *)
Definition capitals : list ascii :=
  (list_ascii_of_string "ABCDEFGHIJKLMNOPQRSTUVWXYZ"
   ++ map ascii_of_nat
        [192; 193; 194; 195; 196; 197; 198; 199; 200; 201; 202; 203;
         204; 205; 206; 207; 208; 209; 210; 211; 212; 213; 214;
         216; 217; 218; 219; 220; 221; 222]%nat)%list.

Definition smalls : list ascii :=
  (list_ascii_of_string "abcdefghijklmnopqrstuvwxyz"
   ++ map ascii_of_nat
        [224; 225; 226; 227; 228; 229; 230; 231; 232; 233; 234; 235;
         236; 237; 238; 239; 240; 241; 242; 243; 244; 245; 246;
         248; 249; 250; 251; 252; 253; 254]%nat)%list.

Definition casePairs : list (ascii * ascii) := combine capitals smalls.

(** Two characters are the same letter: the same character, or the
    capital and the small form of one letter. *)
Definition SameLetter (a b : ascii) : Prop :=
  a = b \/ In (a, b) casePairs \/ In (b, a) casePairs.

(** Two strings are equal up to the case of their letters: they have the
    same length and, position by position, the same letters. *)
Fixpoint CaseEq (s t : string) : Prop :=
  match s, t with
  | EmptyString, EmptyString => True
  | String a s', String b t' => SameLetter a b /\ CaseEq s' t'
  | _, _ => False
  end.

(** [s] contains [t] case-insensitively: some substring of [s] equals
    [t] up to case. *)
Definition ContainsCI (s t : string) : Prop :=
  exists pre mid post, s = pre ++ mid ++ post /\ CaseEq mid t.

End JsString.

(** ** JavaScript numbers *)

Module JsNumber.

(** [n.toString()] for an integer [n]: its decimal representation. *)
Definition toString (n : Z) : string :=
  NilZero.string_of_int (Z.to_int n).

(** [Math.ceil(a / b)] for integers [a] and [b > 0]: the quotient is
    taken in the rationals, then rounded up. *)
Definition ceilDiv (a b : Z) : Z :=
  Qceiling (inject_Z a / inject_Z b).

(** The value of a decimal digit. *)
Definition digitValue (c : ascii) : option Z :=
  if Ascii.eqb c "0" then Some 0
  else if Ascii.eqb c "1" then Some 1
  else if Ascii.eqb c "2" then Some 2
  else if Ascii.eqb c "3" then Some 3
  else if Ascii.eqb c "4" then Some 4
  else if Ascii.eqb c "5" then Some 5
  else if Ascii.eqb c "6" then Some 6
  else if Ascii.eqb c "7" then Some 7
  else if Ascii.eqb c "8" then Some 8
  else if Ascii.eqb c "9" then Some 9
  else None.

(** The number a string of digits denotes, read from the left: each
    digit multiplies what was read by ten. *)
Fixpoint numeral (s : string) (acc : Z) : option Z :=
  match s with
  | EmptyString => Some acc
  | String c s' =>
      match digitValue c with
      | Some d => numeral s' (10 * acc + d)
      | None => None
      end
  end.

(** A string of digits without a superfluous leading zero. *)
Definition Canonical (s : string) : Prop :=
  s <> "" /\ forall rest, s = String "0" rest -> rest = "".

(** [s] is the decimal representation of the integer [z]: the digits of
    its absolute value, without leading zeros, after a minus sign when [z]
    is negative. *)
Definition DecimalOf (z : Z) (s : string) : Prop :=
  exists body,
    s = (if z <? 0 then String "-" body else body)
    /\ Canonical body
    /\ numeral body 0 = Some (Z.abs z).

(** The result of [Number(...)] on the value of the page selector: [NaN]
    or an integer.  The selector offers page indices; a value with a
    fractional part is outside the model. *)
Inductive coerced : Type :=
| NaN : coerced
| Num : Z -> coerced.

(** [x >= lo] and [x < hi]; every comparison with [NaN] is false. *)
Definition geb (x : coerced) (lo : Z) : bool :=
  match x with NaN => false | Num n => lo <=? n end.

Definition ltb (x : coerced) (hi : Z) : bool :=
  match x with NaN => false | Num n => n <? hi end.

End JsNumber.

(** ** JavaScript arrays *)

Module JsArray.
Section Ops.
Context {A : Type}.

Definition len (l : list A) : Z := Z.of_nat (List.length l).

(** [l.slice(start, end)], with the relative-index rules of the
    standard: a negative index counts from the end, and both indices
    are clamped to [0, length]. *)
Definition slice (l : list A) (start stop : Z) : list A :=
  let n := len l in
  let k := if start <? 0 then Z.max (n + start) 0 else Z.min start n in
  let final := if stop <? 0 then Z.max (n + stop) 0 else Z.min stop n in
  firstn (Z.to_nat (final - k)) (skipn (Z.to_nat k) l).

(** [l.sort(cmp)].  [insert x l] puts [x] in front of the first element
    it does not have to follow, so an element never overtakes one it
    ties with. *)
Fixpoint insert (cmp : A -> A -> Z) (x : A) (l : list A) : list A :=
  match l with
  | [] => [x]
  | y :: l' => if cmp x y <=? 0 then x :: l else y :: insert cmp x l'
  end.

Fixpoint sort (cmp : A -> A -> Z) (l : list A) : list A :=
  match l with
  | [] => []
  | x :: l' => insert cmp x (sort cmp l')
  end.

(** A comparator is consistent when swapping its arguments flips the
    sign of the result and "not after" is transitive. *)
Definition Consistent (cmp : A -> A -> Z) : Prop :=
  (forall a b, Z.sgn (cmp b a) = - Z.sgn (cmp a b)) /\
  (forall a b c, cmp a b <= 0 -> cmp b c <= 0 -> cmp a c <= 0).

End Ops.
End JsArray.

(** An order-preserving selection: [StableFilter P l l'] holds when [l'] is
    [l] with exactly the elements that fail [P] removed, position by
    position. *)
Inductive StableFilter {A : Type} (P : A -> Prop) : list A -> list A -> Prop :=
| SF_nil : StableFilter P [] []
| SF_keep : forall x l l', P x -> StableFilter P l l' ->
                           StableFilter P (x :: l) (x :: l')
| SF_drop : forall x l l', ~ P x -> StableFilter P l l' ->
                           StableFilter P (x :: l) l'.

(** ** Records and the component state *)

(** The values a record field can hold, as [typeof] tells them apart.  A
    key that is not a field of the record reads as [undefined] (or as a
    member inherited from [Object.prototype], which is neither a string nor
    a number either: the comparator of [sortData] cannot tell the two
    apart). *)
Inductive JsValue : Type :=
| JsStr : string -> JsValue
| JsNum : Z -> JsValue
| JsUndefined : JsValue.

Definition typeof (v : JsValue) : string :=
  match v with
  | JsStr _ => "string"
  | JsNum _ => "number"
  | JsUndefined => "undefined"
  end.

Record DataType : Type := mkData {
  make : string;
  model : string;
  price : Z
}.

(** [item[key]] *)
Definition getAttr (item : DataType) (key : string) : JsValue :=
  if String.eqb key "make" then JsStr (make item)
  else if String.eqb key "model" then JsStr (model item)
  else if String.eqb key "price" then JsNum (price item)
  else JsUndefined.

Inductive SortDirection : Type := asc | desc.

(** The mutable fields of [AppComponent].  [searchInput] is the current
    value of the form control ([None] is [null], its initial value),
    [dataSubject] the current value of the behaviour subject, and
    [sortedData] the pages the observable of that name has emitted, newest
    first.  [data] is never reassigned and [pageSize] is the constant 10. *)
Record AppComponent : Type := mkApp {
  searchInput : option string;
  dataSubject : list DataType;
  currentSortDirection : option SortDirection;
  currentSortAttribute : option string;
  currentPage : Z;
  totalPages : Z;
  sortedData : list (list DataType)
}.

Definition pageSize : Z := 10.

Definition set_searchInput (v : option string) (c : AppComponent) :=
  mkApp v (dataSubject c) (currentSortDirection c) (currentSortAttribute c)
        (currentPage c) (totalPages c) (sortedData c).

Definition set_currentSortDirection (d : option SortDirection)
  (c : AppComponent) :=
  mkApp (searchInput c) (dataSubject c) d (currentSortAttribute c)
        (currentPage c) (totalPages c) (sortedData c).

Definition set_currentSortAttribute (a : option string) (c : AppComponent) :=
  mkApp (searchInput c) (dataSubject c) (currentSortDirection c) a
        (currentPage c) (totalPages c) (sortedData c).

Definition set_currentPage (n : Z) (c : AppComponent) :=
  mkApp (searchInput c) (dataSubject c) (currentSortDirection c)
        (currentSortAttribute c) n (totalPages c) (sortedData c).

Definition set_totalPages (n : Z) (c : AppComponent) :=
  mkApp (searchInput c) (dataSubject c) (currentSortDirection c)
        (currentSortAttribute c) (currentPage c) n (sortedData c).

(** The [map] stage of the constructor's pipe: the page of [data] that
    [currentPage] selects at the time of the emission. *)
Definition pageOf (c : AppComponent) (data : list DataType) : list DataType :=
  JsArray.slice data (currentPage c * pageSize)
                     ((currentPage c + 1) * pageSize).

(** [this.dataSubject.next(v)]: [v] becomes the value of the subject and the
    subscriber of [sortedData] receives the current page of [v]. *)
Definition dataSubject_next (v : list DataType) : state AppComponent unit :=
  c <- get ;;
  put (mkApp (searchInput c) v (currentSortDirection c)
             (currentSortAttribute c) (currentPage c) (totalPages c)
             (pageOf c v :: sortedData c)).

(** The page most recently emitted by [sortedData]. *)
Definition visiblePage (c : AppComponent) : list DataType :=
  hd [] (sortedData c).

(** [if (text)] for a string: the empty string is falsy. *)
Definition truthy (text : string) : bool :=
  match text with
  | EmptyString => false
  | String _ _ => true
  end.

(** The callback of [this.data.filter] in [searchData]. *)
Definition matchesItem (text : string) (item : DataType) : bool :=
  if JsString.includes (JsString.toLowerCase (make item))
                       (JsString.toLowerCase text)
     || JsString.includes (JsString.toLowerCase (model item))
                          (JsString.toLowerCase text)
  then true
  else if JsString.includes (JsNumber.toString (price item)) text then true
  else false.

(** The value [comparison] holds at the end of the comparator of
    [sortData], before the direction is applied. *)
Definition comparison (localeCompare : string -> string -> Z)
  (valueA valueB : JsValue) : Z :=
  let comparison := 0 in
  let comparison :=
    match valueA, valueB with
    | JsStr a, JsStr b => localeCompare a b
    | _, _ => comparison
    end in
  let comparison :=
    match valueA, valueB with
    | JsNum a, JsNum b => a - b
    | _, _ => comparison
    end in
  comparison.

(** The comparator passed to [sortedArray.sort]. *)
Definition compareFn (localeCompare : string -> string -> Z)
  (sortAttribute : string) (direction : option SortDirection)
  (a b : DataType) : Z :=
  let valueA := getAttr a sortAttribute in
  let valueB := getAttr b sortAttribute in
  let comparison := comparison localeCompare valueA valueB in
  match direction with
  | Some desc => - comparison
  | _ => comparison
  end.

Definition eqb_attr (current : option string) (sortAttribute : string) : bool :=
  match current with
  | Some a => String.eqb a sortAttribute
  | None => false
  end.

Section Component.

(** The dataset imported from ./data and the collation of the host. *)
Variable DATA : list DataType.
Variable localeCompare : string -> string -> Z.

(** The component as the field initialisers leave it, once the view has
    subscribed to [sortedData] and received the first page. *)
Definition init : AppComponent :=
  mkApp None DATA None None 0
        (JsNumber.ceilDiv (JsArray.len DATA) pageSize)
        [JsArray.slice DATA 0 pageSize].

Definition searchData (text : option string)
  : state AppComponent (list DataType) :=
  let filteredData :=
    match text with
    | Some t => if truthy t then filter (matchesItem t) DATA else DATA
    | None => DATA (* null is falsy *)
    end in
  c <- get ;;
  put (set_totalPages
         (JsNumber.ceilDiv (JsArray.len filteredData) pageSize) c) ;;
  ret filteredData.

Definition updateDisplayedData : state AppComponent unit :=
  c <- get ;;
  filteredData <- searchData (searchInput c) ;;
  dataSubject_next filteredData.

(** The subscriber of the debounced [searchInput.valueChanges]. *)
Definition onSearchText (text : option string) : state AppComponent unit :=
  filteredData <- searchData text ;;
  dataSubject_next filteredData.

(** The form control takes a new value (a keystroke); nothing is derived
    until the debounced stream emits. *)
Definition setSearchInput (v : option string) : state AppComponent unit :=
  c <- get ;;
  put (set_searchInput v c).

Definition nextPage : state AppComponent unit :=
  c <- get ;;
  if currentPage c <? totalPages c - 1 then
    put (set_currentPage (currentPage c + 1) c) ;;
    updateDisplayedData
  else ret tt.

Definition previousPage : state AppComponent unit :=
  c <- get ;;
  if 0 <? currentPage c then
    put (set_currentPage (currentPage c - 1) c) ;;
    updateDisplayedData
  else ret tt.

(** [selectedPage] is [Number(selectElement.value)]. *)
Definition jumpToPage (selectedPage : JsNumber.coerced)
  : state AppComponent unit :=
  c <- get ;;
  if JsNumber.geb selectedPage 0 && JsNumber.ltb selectedPage (totalPages c)
  then
    match selectedPage with
    | JsNumber.Num n => put (set_currentPage n c) ;; updateDisplayedData
    | JsNumber.NaN => ret tt
    end
  else ret tt.

Definition sortData (sortAttribute : string) : state AppComponent unit :=
  c <- get ;;
  let sortedArray := dataSubject c in
  (if eqb_attr (currentSortAttribute c) sortAttribute then
     put (set_currentSortDirection
            (match currentSortDirection c with
             | Some asc => Some desc
             | _ => Some asc
             end) c)
   else
     put (set_currentSortDirection (Some asc)
            (set_currentSortAttribute (Some sortAttribute) c))) ;;
  c' <- get ;;
  let sortedArray :=
    JsArray.sort
      (compareFn localeCompare sortAttribute (currentSortDirection c'))
      sortedArray in
  dataSubject_next sortedArray.

(** The events that change the state of the component. *)
Inductive Event : Type :=
| SearchEmission (text : option string)
| InputChange (v : option string)
| SortRequested (sortAttribute : string)
| NextPage
| PreviousPage
| JumpToPage (selectedPage : JsNumber.coerced).

Definition handle (e : Event) : state AppComponent unit :=
  match e with
  | SearchEmission text => onSearchText text
  | InputChange v => setSearchInput v
  | SortRequested a => sortData a
  | NextPage => nextPage
  | PreviousPage => previousPage
  | JumpToPage n => jumpToPage n
  end.

Definition step (e : Event) (c : AppComponent) : AppComponent :=
  execState (handle e) c.


End Component.

(** ** The behaviour the specification describes *)

(** What a search text matches, in the words of the specification: the
    text is empty, or [make] or [model] contains it case-insensitively, or
    the decimal representation of [price] contains it literally. *)
Definition SpecMatches (t : string) (r : DataType) : Prop :=
  t = ""
  \/ JsString.ContainsCI (make r) t
  \/ JsString.ContainsCI (model r) t
  \/ exists decimal,
       JsNumber.DecimalOf (price r) decimal /\ JsString.Substring t decimal.

(** Step 2 of the derivation pipeline: the records a search text selects;
    an absent text selects everything. *)
Definition specFilter (DATA : list DataType) (text : option string)
  : list DataType :=
  match text with
  | Some t => filter (fun r => negb (truthy t) || matchesItem t r) DATA
  | None => DATA
  end.

(** The derivation pipeline of the specification (section 4.4): filter the
    dataset, sort the filtered records when a sort attribute is set, slice
    the page. *)
Definition specPipeline (DATA : list DataType)
  (localeCompare : string -> string -> Z) (text : option string)
  (sortAttribute : option string) (direction : option SortDirection)
  (pageIndex : Z) : list DataType :=
  let filteredRecords := specFilter DATA text in
  let sortedRecords :=
    match sortAttribute with
    | Some a => JsArray.sort (compareFn localeCompare a direction)
                             filteredRecords
    | None => filteredRecords
    end in
  JsArray.slice sortedRecords (pageIndex * pageSize)
                              ((pageIndex + 1) * pageSize).

(** The bound the specification puts on the page index. *)
Definition PageInvariant (c : AppComponent) : Prop :=
  0 <= currentPage c < Z.max 1 (totalPages c).

(** [totalPages] was computed from the current value of the search input:
    no keystroke is waiting for the debounced stream to emit. *)
Definition Synced (DATA : list DataType) (c : AppComponent) : Prop :=
  totalPages c =
  JsNumber.ceilDiv (JsArray.len (specFilter DATA (searchInput c))) pageSize.

(** The guards of the three navigation methods. *)
Definition navigates (e : Event) (c : AppComponent) : bool :=
  match e with
  | NextPage => currentPage c <? totalPages c - 1
  | PreviousPage => 0 <? currentPage c
  | JumpToPage n => JsNumber.geb n 0 && JsNumber.ltb n (totalPages c)
  | _ => false
  end.

(** The page a navigation event asks for. *)
Definition targetPage (e : Event) (c : AppComponent) : Z :=
  match e with
  | NextPage => currentPage c + 1
  | PreviousPage => currentPage c - 1
  | JumpToPage (JsNumber.Num n) => n
  | _ => currentPage c
  end.

(** A page number that [jumpToPage] must ignore. *)
Definition OutOfRange (n : JsNumber.coerced) (total : Z) : Prop :=
  match n with
  | JsNumber.NaN => True
  | JsNumber.Num z => z < 0 \/ total <= z
  end.

(** Two records tie on an attribute. *)
Definition ties (localeCompare : string -> string -> Z)
  (sortAttribute : string) (a b : DataType) : bool :=
  comparison localeCompare (getAttr a sortAttribute)
                           (getAttr b sortAttribute) =? 0.

Definition flip (d : option SortDirection) : option SortDirection :=
  match d with
  | Some asc => Some desc
  | _ => Some asc
  end.

(** ** A concrete instance *)

(** Comparison by character codes, a consistent stand-in for the collation
    of the host. *)
Definition codeUnitCompare (a b : string) : Z :=
  match OrdersEx.String_as_OT.compare a b with
  | Lt => -1
  | Eq => 0
  | Gt => 1
  end.

Definition cars : list DataType :=
  [ mkData "Toyota" "Celica" 35000;
    mkData "Ford" "Mondeo" 32000;
    mkData "Porsche" "Boxster" 72000 ].

(** Two records with the same price. *)
Definition twins : list DataType :=
  [ mkData "Toyota" "Celica" 35000;
    mkData "Honda" "Civic" 35000 ].

(** Twelve records: two pages. *)
Definition fleet : list DataType :=
  [ mkData "Toyota" "Celica" 35000;
    mkData "Ford" "Mondeo" 32000;
    mkData "Porsche" "Boxster" 72000;
    mkData "Honda" "Civic" 21000;
    mkData "BMW" "M5" 60000;
    mkData "Audi" "A4" 41000;
    mkData "Volvo" "V60" 43000;
    mkData "Fiat" "Panda" 12000;
    mkData "Skoda" "Octavia" 27000;
    mkData "Mazda" "MX5" 30000;
    mkData "Honda" "Accord" 28000;
    mkData "Kia" "Ceed" 19000 ].

(** ** Further notions used to state properties of the component *)

(** A character is a letter: it occurs in the table of capitals and
    small letters. *)
Definition isLetter (c : ascii) : bool :=
  existsb (Ascii.eqb c) JsString.capitals
  || existsb (Ascii.eqb c) JsString.smalls.

(** The decidable form of [JsString.SameLetter]. *)
Definition sameLetterb (a b : ascii) : bool :=
  Ascii.eqb a b
  || existsb (fun p => Ascii.eqb (fst p) a && Ascii.eqb (snd p) b)
             JsString.casePairs
  || existsb (fun p => Ascii.eqb (fst p) b && Ascii.eqb (snd p) a)
             JsString.casePairs.

(** The 256 characters. *)
Definition allChars : list ascii := map ascii_of_nat (seq 0 256).

(** The prices a JavaScript number holds exactly and [toString] prints
    digit by digit: the safe integers. *)
Definition SafePrices (DATA : list DataType) : Prop :=
  Forall (fun r => Z.abs (price r) <= 9007199254740991) DATA.

(** A string without letters. *)
Fixpoint caseless (s : string) : bool :=
  match s with
  | EmptyString => true
  | String c s' => negb (isLetter c) && caseless s'
  end.

(** The page of [data] with index [p], as the [map] stage of the
    constructor slices it. *)
Definition pageAt (data : list DataType) (p : Z) : list DataType :=
  JsArray.slice data (p * pageSize) ((p + 1) * pageSize).


(** * Properties *)

(** ** Strings *)

Lemma prefix_iff (t s : string) :
  String.prefix t s = true <-> exists post, s = t ++ post.
Proof.
  revert s; induction t as [|a t IH]; intros s.
  - split; [exists s; reflexivity | destruct s; reflexivity].
  - destruct s as [|b s]; simpl.
    + split; [discriminate | intros [post H]; discriminate].
    + destruct (Ascii.ascii_dec a b) as [->|Hab].
      * rewrite IH. split; intros [post H]; exists post.
        -- simpl. now rewrite H.
        -- simpl in H. now inversion H.
      * split; [discriminate | intros [post H]].
        simpl in H. inversion H. congruence.
Qed.

Lemma includes_iff (s t : string) :
  JsString.includes s t = true <-> JsString.Substring t s.
Proof.
  unfold JsString.Substring.
  induction s as [|a s IH]; cbn [JsString.includes];
    rewrite orb_true_iff, prefix_iff.
  - split.
    + intros [[post H]|H]; [|discriminate]. now exists "", post.
    + intros (pre & post & H). left. destruct pre; [|discriminate].
      now exists post.
  - rewrite IH. split.
    + intros [[post H]|(pre & post & H)].
      * now exists "", post.
      * exists (String a pre), post. simpl. now rewrite H.
    + intros (pre & post & H). destruct pre as [|b pre]; simpl in H.
      * left. now exists post.
      * right. inversion H. now exists pre, post.
Qed.

Lemma toLowerCase_app (a b : string) :
  JsString.toLowerCase (a ++ b)
  = JsString.toLowerCase a ++ JsString.toLowerCase b.
Proof. induction a as [|x a IH]; simpl; [reflexivity | now rewrite IH]. Qed.

Lemma toLowerCase_split (s a b : string) :
  JsString.toLowerCase s = a ++ b ->
  exists s1 s2, s = s1 ++ s2 /\ JsString.toLowerCase s1 = a
                /\ JsString.toLowerCase s2 = b.
Proof.
  revert s; induction a as [|x a IH]; intros s H; simpl in H.
  - now exists "", s.
  - destruct s as [|y s]; [discriminate|]. simpl in H. inversion H as [[Hx Hs]].
    destruct (IH _ Hs) as (s1 & s2 & -> & <- & <-).
    now exists (String y s1), s2.
Qed.

Lemma in_allChars (a : ascii) : In a allChars.
Proof.
  unfold allChars. rewrite <- (ascii_nat_embedding a).
  apply in_map, in_seq. pose proof (nat_ascii_bounded a). lia.
Qed.

Lemma sameLetterb_iff (a b : ascii) :
  sameLetterb a b = true <-> JsString.SameLetter a b.
Proof.
  unfold sameLetterb, JsString.SameLetter.
  rewrite !orb_true_iff, Ascii.eqb_eq, !existsb_exists.
  assert (E : forall x y,
            (exists p, In p JsString.casePairs
                       /\ Ascii.eqb (fst p) x && Ascii.eqb (snd p) y = true)
            <-> In (x, y) JsString.casePairs).
  { intros x y. split.
    - intros ([u v] & Hin & H). simpl in H.
      apply andb_true_iff in H as [Hu Hv].
      apply Ascii.eqb_eq in Hu, Hv. now subst.
    - intros Hin. exists (x, y). simpl. now rewrite !Ascii.eqb_refl. }
  rewrite !E. tauto.
Qed.

(** [lowerChar] identifies two characters exactly when the table of
    letter pairs does: checked on all pairs of characters. *)
Lemma lowerChar_table :
  forallb (fun a =>
    forallb (fun b =>
      Bool.eqb (Ascii.eqb (JsString.lowerChar a) (JsString.lowerChar b))
               (sameLetterb a b)) allChars) allChars = true.
Proof. vm_compute. reflexivity. Qed.

Lemma lowerChar_eq_iff (a b : ascii) :
  JsString.lowerChar a = JsString.lowerChar b <-> JsString.SameLetter a b.
Proof.
  pose proof lowerChar_table as H.
  rewrite forallb_forall in H. specialize (H a (in_allChars a)).
  rewrite forallb_forall in H. specialize (H b (in_allChars b)).
  apply Bool.eqb_prop in H.
  rewrite <- sameLetterb_iff, <- H. apply iff_sym, Ascii.eqb_eq.
Qed.

(** Equality up to case, as the table of letters defines it, is equality
    of the lower-cased strings. *)
Lemma caseEq_iff (s t : string) :
  JsString.CaseEq s t <-> JsString.toLowerCase s = JsString.toLowerCase t.
Proof.
  revert t. induction s as [|a s IH]; intros [|b t]; simpl;
    try (split; [contradiction | discriminate]); [tauto|].
  rewrite IH, <- lowerChar_eq_iff. split.
  - intros [-> ->]. reflexivity.
  - intros H. inversion H. now split.
Qed.

Lemma includes_lower_iff (s t : string) :
  JsString.includes (JsString.toLowerCase s) (JsString.toLowerCase t) = true
  <-> JsString.ContainsCI s t.
Proof.
  rewrite includes_iff. unfold JsString.Substring, JsString.ContainsCI.
  split.
  - intros (pre & post & H).
    apply toLowerCase_split in H as (s1 & s23 & -> & <- & H).
    apply toLowerCase_split in H as (s2 & s3 & -> & H2 & <-).
    exists s1, s2, s3. split; [reflexivity | now apply caseEq_iff].
  - intros (pre & mid & post & -> & H). apply caseEq_iff in H.
    exists (JsString.toLowerCase pre), (JsString.toLowerCase post).
    now rewrite !toLowerCase_app, H.
Qed.

Lemma truthy_false_iff (t : string) : truthy t = false <-> t = "".
Proof. destruct t; simpl; split; congruence. Qed.

(** The filter callback decides exactly what the specification calls a
    match of a non-empty text. *)
Lemma matchesItem_iff (t : string) (r : DataType) :
  matchesItem t r = true
  <-> JsString.ContainsCI (make r) t
      \/ JsString.ContainsCI (model r) t
      \/ JsString.Substring t (JsNumber.toString (price r)).
Proof.
  unfold matchesItem.
  rewrite <- !includes_lower_iff, <- includes_iff.
  destruct (JsString.includes (JsString.toLowerCase (make r)) _);
    destruct (JsString.includes (JsString.toLowerCase (model r)) _);
    destruct (JsString.includes (JsNumber.toString (price r)) t);
    simpl; intuition congruence.
Qed.

(** *** Decimal numerals *)

Lemma numeral_cons (c : ascii) (k : Z) (s : string) (acc : Z) :
  JsNumber.digitValue c = Some k ->
  JsNumber.numeral (String c s) acc = JsNumber.numeral s (10 * acc + k).
Proof. intros H. simpl. now rewrite H. Qed.

Lemma numeral_of_uint_acc (d : Decimal.uint) (acc : positive) :
  JsNumber.numeral (NilEmpty.string_of_uint d) (Z.pos acc)
  = Some (Z.pos (Pos.of_uint_acc d acc)).
Proof.
  revert acc. induction d as [|d IH|d IH|d IH|d IH|d IH|d IH|d IH|d IH|d IH|d IH];
    intros acc; [reflexivity | ..];
    cbn [NilEmpty.string_of_uint Pos.of_uint_acc];
    erewrite numeral_cons by reflexivity;
    rewrite <- IH; f_equal; lia.
Qed.

Lemma numeral_of_uint (d : Decimal.uint) :
  JsNumber.numeral (NilEmpty.string_of_uint d) 0
  = Some (Z.of_N (Pos.of_uint d)).
Proof.
  induction d as [|d IH|d IH|d IH|d IH|d IH|d IH|d IH|d IH|d IH|d IH];
    [reflexivity | ..];
    cbn [NilEmpty.string_of_uint Pos.of_uint];
    erewrite numeral_cons by reflexivity;
    [exact IH | ..];
    apply (numeral_of_uint_acc d).
Qed.

Lemma numeral_digits (s : string) (acc v : Z) :
  JsNumber.numeral s acc = Some v ->
  exists d, s = NilEmpty.string_of_uint d.
Proof.
  revert acc. induction s as [|a s IH]; intros acc H.
  - now exists Decimal.Nil.
  - simpl in H. destruct (JsNumber.digitValue a) as [k|] eqn:E;
      [|discriminate].
    apply IH in H as [d ->]. unfold JsNumber.digitValue in E.
    repeat match type of E with
      | (if Ascii.eqb a ?c then _ else _) = _ =>
          destruct (Ascii.eqb_spec a c) as [->|_]
      end; try discriminate;
      [exists (Decimal.D0 d) | exists (Decimal.D1 d) | exists (Decimal.D2 d)
      |exists (Decimal.D3 d) | exists (Decimal.D4 d) | exists (Decimal.D5 d)
      |exists (Decimal.D6 d) | exists (Decimal.D7 d) | exists (Decimal.D8 d)
      |exists (Decimal.D9 d)]; reflexivity.
Qed.

Lemma string_of_uint_nil (d : Decimal.uint) :
  NilEmpty.string_of_uint d = "" -> d = Decimal.Nil.
Proof. destruct d; simpl; intros H; [reflexivity | discriminate ..]. Qed.

Lemma canonical_unorm (d : Decimal.uint) :
  JsNumber.Canonical (NilEmpty.string_of_uint d) -> Decimal.unorm d = d.
Proof.
  intros [Hne H0]. destruct d; try reflexivity.
  - now contradiction Hne.
  - simpl in H0. specialize (H0 _ eq_refl).
    apply string_of_uint_nil in H0. now subst.
Qed.

Lemma unorm_canonical (d : Decimal.uint) :
  d <> Decimal.Nil -> Decimal.unorm d = d ->
  JsNumber.Canonical (NilEmpty.string_of_uint d).
Proof.
  intros Hd Hu. split.
  - intros H. now apply string_of_uint_nil in H.
  - intros rest H. destruct d; simpl in H; try discriminate.
    inversion H. subst rest. unfold Decimal.unorm in Hu. simpl in Hu.
    destruct (Decimal.nzhead d) eqn:E; try discriminate Hu.
    + inversion Hu. reflexivity.
    + exfalso. exact (DecimalFacts.nzhead_nonzero _ _ E).
Qed.

Lemma to_uint_unorm (p : positive) :
  Decimal.unorm (Pos.to_uint p) = Pos.to_uint p.
Proof.
  rewrite <- (DecimalPos.Unsigned.to_of (Pos.to_uint p)).
  now rewrite DecimalPos.Unsigned.of_to.
Qed.

Lemma nilzero_nonnil (d : Decimal.uint) :
  d <> Decimal.Nil -> NilZero.string_of_uint d = NilEmpty.string_of_uint d.
Proof. destruct d; [contradiction | reflexivity ..]. Qed.

(** [toString] prints the decimal representation. *)
Lemma toString_DecimalOf (z : Z) : JsNumber.DecimalOf z (JsNumber.toString z).
Proof.
  unfold JsNumber.DecimalOf, JsNumber.toString.
  destruct z as [|p|p]; cbn [Z.to_int NilZero.string_of_int Z.ltb Z.compare].
  - exists "0". split; [reflexivity|]. split; [|reflexivity].
    split; [discriminate | intros rest H; now inversion H].
  - exists (NilEmpty.string_of_uint (Pos.to_uint p)).
    pose proof (DecimalPos.Unsigned.to_uint_nonnil p) as Hn.
    split; [now apply nilzero_nonnil|]. split.
    + apply unorm_canonical; [exact Hn | apply to_uint_unorm].
    + now rewrite numeral_of_uint, DecimalPos.Unsigned.of_to.
  - exists (NilEmpty.string_of_uint (Pos.to_uint p)).
    pose proof (DecimalPos.Unsigned.to_uint_nonnil p) as Hn.
    split; [f_equal; now apply nilzero_nonnil|]. split.
    + apply unorm_canonical; [exact Hn | apply to_uint_unorm].
    + now rewrite numeral_of_uint, DecimalPos.Unsigned.of_to.
Qed.

(** An integer has one decimal representation only. *)
Lemma DecimalOf_unique (z : Z) (s : string) :
  JsNumber.DecimalOf z s -> s = JsNumber.toString z.
Proof.
  intros (body & -> & Hc & Hv).
  destruct (numeral_digits _ _ _ Hv) as [d ->].
  pose proof (canonical_unorm d Hc) as Hu.
  rewrite numeral_of_uint in Hv. inversion Hv as [Hz]. clear Hv.
  pose proof (DecimalPos.Unsigned.to_of d) as Hto. rewrite Hu in Hto.
  unfold JsNumber.toString.
  destruct z as [|p|p]; cbn [Z.to_int NilZero.string_of_int Z.ltb Z.compare];
    cbn [Z.abs] in Hz.
  - destruct (Pos.of_uint d); [|discriminate].
    cbn [N.to_uint] in Hto. now subst d.
  - destruct (Pos.of_uint d) as [|q]; [discriminate|].
    inversion Hz. subst q. cbn [N.to_uint] in Hto. rewrite <- Hto.
    symmetry. apply nilzero_nonnil, DecimalPos.Unsigned.to_uint_nonnil.
  - destruct (Pos.of_uint d) as [|q]; [discriminate|].
    inversion Hz. subst q. cbn [N.to_uint] in Hto. rewrite <- Hto.
    f_equal. symmetry.
    apply nilzero_nonnil, DecimalPos.Unsigned.to_uint_nonnil.
Qed.

Lemma specMatches_iff (t : string) (r : DataType) :
  negb (truthy t) || matchesItem t r = true <-> SpecMatches t r.
Proof.
  unfold SpecMatches.
  rewrite orb_true_iff, negb_true_iff, truthy_false_iff, matchesItem_iff.
  assert (E : (exists decimal, JsNumber.DecimalOf (price r) decimal
                               /\ JsString.Substring t decimal)
              <-> JsString.Substring t (JsNumber.toString (price r))).
  { split.
    - intros (s & Hd & Hs). now rewrite <- (DecimalOf_unique _ _ Hd).
    - intros H. exists (JsNumber.toString (price r)).
      split; [apply toString_DecimalOf | exact H]. }
  rewrite E. reflexivity.
Qed.

(** ** Lists *)

Lemma filter_StableFilter {A : Type} (P : A -> Prop) (f : A -> bool)
  (l : list A) :
  (forall x, f x = true <-> P x) -> StableFilter P l (filter f l).
Proof.
  intros Hf. induction l as [|x l IH]; simpl; [constructor|].
  destruct (f x) eqn:E.
  - apply SF_keep; [now apply Hf | exact IH].
  - apply SF_drop; [rewrite <- Hf; congruence | exact IH].
Qed.

Lemma filter_all {A : Type} (f : A -> bool) (l : list A) :
  (forall x, f x = true) -> filter f l = l.
Proof.
  intros H. induction l as [|x l IH]; simpl; [reflexivity|].
  now rewrite H, IH.
Qed.

(** ** Numbers *)

(** [ceilDiv a b] is the least integer [k] with [a <= b * k]. *)
Lemma ceilDiv_spec (a b : Z) :
  0 < b -> b * (JsNumber.ceilDiv a b - 1) < a <= b * JsNumber.ceilDiv a b.
Proof.
  intros Hb. unfold JsNumber.ceilDiv, Qceiling, Qfloor.
  destruct b as [|p|p]; try lia.
  unfold Qdiv, Qinv, Qmult, Qopp, inject_Z; simpl Qnum; simpl Qden.
  rewrite Z.mul_1_r.
  pose proof (Z.div_mod (- a) (Z.pos p) ltac:(lia)) as E.
  pose proof (Z.mod_pos_bound (- a) (Z.pos p) ltac:(lia)) as B.
  nia.
Qed.

Lemma ceilDiv_unique (a b k : Z) :
  0 < b -> b * (k - 1) < a <= b * k -> JsNumber.ceilDiv a b = k.
Proof.
  intros Hb Hk. pose proof (ceilDiv_spec a b Hb). nia.
Qed.

(** ** Sorting *)

Section SortFacts.

Context {A : Type}.
Variable cmp : A -> A -> Z.

Lemma insert_perm (x : A) (l : list A) :
  Permutation (JsArray.insert cmp x l) (x :: l).
Proof.
  induction l as [|y l IH]; simpl; [reflexivity|].
  destruct (cmp x y <=? 0); [reflexivity|].
  rewrite IH. apply perm_swap.
Qed.

Lemma sort_perm (l : list A) : Permutation (JsArray.sort cmp l) l.
Proof.
  induction l as [|x l IH]; simpl; [reflexivity|].
  rewrite insert_perm. now constructor.
Qed.

(** An element that has to follow every element of [l] ends up last. *)
Lemma insert_last (x : A) (l : list A) :
  Forall (fun y => 0 < cmp x y) l -> JsArray.insert cmp x l = (l ++ [x])%list.
Proof.
  induction 1 as [|y l Hy _ IH]; simpl; [reflexivity|].
  destruct (Z.leb_spec (cmp x y) 0); [lia | now rewrite IH].
Qed.

(** Sorting a sequence in which every element has to follow all the later
    ones reverses it. *)
Lemma sort_descending (l : list A) :
  StronglySorted (fun a b => 0 < cmp a b) l -> JsArray.sort cmp l = rev l.
Proof.
  induction 1 as [|x l _ IH Hx]; simpl; [reflexivity|].
  rewrite IH. apply insert_last.
  apply Forall_forall. intros y Hy. rewrite <- in_rev in Hy.
  revert y Hy. now apply Forall_forall.
Qed.

(** With a comparator that answers 0 on the elements of the sequence,
    nothing moves. *)
Lemma sort_all_ties (l : list A) :
  (forall a b, In a l -> In b l -> cmp a b = 0) -> JsArray.sort cmp l = l.
Proof.
  induction l as [|x l IH]; intros H; simpl; [reflexivity|].
  rewrite IH by (intros; apply H; now right).
  destruct l as [|y l]; simpl; [reflexivity|].
  rewrite (H x y) by (simpl; auto). reflexivity.
Qed.

Hypothesis cmp_consistent : JsArray.Consistent cmp.

Lemma cmp_flip_pos (a b : A) : 0 < cmp a b -> cmp b a < 0.
Proof. destruct cmp_consistent as [Hs _]. specialize (Hs a b). lia. Qed.

Lemma cmp_flip_zero (a b : A) : cmp a b = 0 -> cmp b a = 0.
Proof. destruct cmp_consistent as [Hs _]. specialize (Hs a b). lia. Qed.

Lemma cmp_tie_trans (x y z : A) : cmp x y = 0 -> cmp x z = 0 -> cmp y z = 0.
Proof.
  intros Hxy Hxz. destruct cmp_consistent as [Hs Ht].
  pose proof (cmp_flip_zero _ _ Hxy). pose proof (cmp_flip_zero _ _ Hxz).
  assert (cmp y z <= 0) by (apply (Ht y x z); lia).
  assert (cmp z y <= 0) by (apply (Ht z x y); lia).
  specialize (Hs y z). lia.
Qed.

Lemma insert_sorted (x : A) (l : list A) :
  StronglySorted (fun a b => cmp a b <= 0) l ->
  StronglySorted (fun a b => cmp a b <= 0) (JsArray.insert cmp x l).
Proof.
  destruct cmp_consistent as [Hs Ht].
  induction 1 as [|y l Hl IH Hy]; simpl.
  - repeat constructor.
  - destruct (Z.leb_spec (cmp x y) 0) as [Hxy|Hxy].
    + constructor; [now constructor|].
      constructor; [exact Hxy|].
      eapply Forall_impl; [|exact Hy]. intros z Hz. now apply (Ht x y z).
    + constructor; [exact IH|].
      eapply Permutation_Forall; [symmetry; apply insert_perm|].
      constructor; [|exact Hy]. pose proof (cmp_flip_pos _ _ Hxy). lia.
Qed.

Lemma sort_sorted (l : list A) :
  StronglySorted (fun a b => cmp a b <= 0) (JsArray.sort cmp l).
Proof.
  induction l as [|x l IH]; simpl; [constructor | now apply insert_sorted].
Qed.

(** Inserting [y] never moves it past an element it ties with: the records
    that tie with a given [x] keep their order. *)
Lemma insert_stable (x y : A) (l : list A) :
  filter (fun r => cmp x r =? 0) (JsArray.insert cmp y l)
  = filter (fun r => cmp x r =? 0) (y :: l).
Proof.
  induction l as [|z l IH]; [reflexivity|].
  cbn [JsArray.insert].
  destruct (Z.leb_spec (cmp y z) 0) as [Hyz|Hyz]; [reflexivity|].
  cbn [filter] in *. rewrite IH.
  destruct (Z.eqb_spec (cmp x y) 0) as [Hxy|Hxy]; [|reflexivity].
  destruct (Z.eqb_spec (cmp x z) 0) as [Hxz|Hxz]; [|reflexivity].
  pose proof (cmp_tie_trans _ _ _ Hxy Hxz). lia.
Qed.

Lemma sort_stable (x : A) (l : list A) :
  filter (fun r => cmp x r =? 0) (JsArray.sort cmp l)
  = filter (fun r => cmp x r =? 0) l.
Proof.
  induction l as [|y l IH]; [reflexivity|].
  cbn [JsArray.sort]. rewrite insert_stable. cbn [filter]. now rewrite IH.
Qed.

(** Without ties, the sorted sequence is strictly increasing. *)
Lemma sorted_strict (l : list A) :
  ForallOrdPairs (fun a b => cmp a b <> 0) l ->
  StronglySorted (fun a b => cmp a b <= 0) l ->
  StronglySorted (fun a b => cmp a b < 0) l.
Proof.
  induction 1 as [|x l Hx Hl IH]; intros Hs; [constructor|].
  apply StronglySorted_inv in Hs as [Hs Hle].
  constructor; [now apply IH|].
  rewrite Forall_forall in *. intros y Hy.
  specialize (Hx y Hy). specialize (Hle y Hy). lia.
Qed.

Lemma insert_no_ties (x : A) (l : list A) :
  Forall (fun b => cmp x b <> 0) l ->
  ForallOrdPairs (fun a b => cmp a b <> 0) l ->
  ForallOrdPairs (fun a b => cmp a b <> 0) (JsArray.insert cmp x l).
Proof.
  intros Hx Hl. revert Hx.
  induction Hl as [|y l Hy Hl IH]; intros Hx; simpl.
  - repeat constructor.
  - apply Forall_cons_iff in Hx as [Hxy Hx].
    destruct (cmp x y <=? 0).
    + constructor; [now constructor | now constructor].
    + constructor; [|now apply IH].
      eapply Permutation_Forall; [symmetry; apply insert_perm|].
      constructor; [|exact Hy].
      intros E. apply Hxy. now apply cmp_flip_zero.
Qed.

Lemma sort_no_ties (l : list A) :
  ForallOrdPairs (fun a b => cmp a b <> 0) l ->
  ForallOrdPairs (fun a b => cmp a b <> 0) (JsArray.sort cmp l).
Proof.
  induction 1 as [|x l Hx Hl IH]; simpl; [constructor|].
  apply insert_no_ties; [|exact IH].
  eapply Permutation_Forall; [symmetry; apply sort_perm | exact Hx].
Qed.

End SortFacts.

Lemma sort_ext {A : Type} (f g : A -> A -> Z) (l : list A) :
  (forall a b, f a b = g a b) -> JsArray.sort f l = JsArray.sort g l.
Proof.
  intros H. induction l as [|x l IH]; simpl; [reflexivity|].
  rewrite IH. generalize (JsArray.sort g l). intros m.
  induction m as [|y m IHm]; simpl; [reflexivity|].
  now rewrite H, IHm.
Qed.

Lemma StronglySorted_weaken {A : Type} (R S : A -> A -> Prop) (l : list A) :
  (forall a b, R a b -> S a b) -> StronglySorted R l -> StronglySorted S l.
Proof.
  intros H. induction 1 as [|x l _ IH Hx]; constructor; [exact IH|].
  eapply Forall_impl; [|exact Hx]. intros y. apply H.
Qed.

Lemma ForallOrdPairs_weaken {A : Type} (R S : A -> A -> Prop) (l : list A) :
  (forall a b, R a b -> S a b) -> ForallOrdPairs R l -> ForallOrdPairs S l.
Proof.
  intros H. induction 1 as [|x l Hx _ IH]; constructor; [|exact IH].
  eapply Forall_impl; [|exact Hx]. intros y. apply H.
Qed.

(** Sorting an already sorted, tie-free sequence with the negated
    comparator reverses it. *)
Lemma sort_twice_rev {A : Type} (cmp : A -> A -> Z) (l : list A) :
  JsArray.Consistent cmp ->
  ForallOrdPairs (fun a b => cmp a b <> 0) l ->
  JsArray.sort (fun a b => - cmp a b) (JsArray.sort cmp l)
  = rev (JsArray.sort cmp l).
Proof.
  intros Hc Hl. apply sort_descending.
  apply (StronglySorted_weaken (fun a b => cmp a b < 0)).
  - intros a b. lia.
  - apply (sorted_strict cmp);
      [now apply sort_no_ties | now apply sort_sorted].
Qed.

(** ** The comparator of [sortData] *)

Lemma getAttr_unknown (item : DataType) (key : string) :
  key <> "make" -> key <> "model" -> key <> "price" ->
  getAttr item key = JsUndefined.
Proof.
  intros H1 H2 H3. unfold getAttr.
  apply String.eqb_neq in H1, H2, H3. now rewrite H1, H2, H3.
Qed.

Lemma compareFn_unknown (lc : string -> string -> Z) (key : string)
  (d : option SortDirection) (a b : DataType) :
  key <> "make" -> key <> "model" -> key <> "price" ->
  compareFn lc key d a b = 0.
Proof.
  intros H1 H2 H3. unfold compareFn.
  rewrite !getAttr_unknown by assumption. now destruct d as [[]|].
Qed.

Lemma compareFn_flip (lc : string -> string -> Z) (key : string)
  (d : SortDirection) (a b : DataType) :
  compareFn lc key (flip (Some d)) a b = - compareFn lc key (Some d) a b.
Proof. unfold compareFn. destruct d; simpl; lia. Qed.

Lemma comparison_consistent (lc : string -> string -> Z) (key : string) :
  JsArray.Consistent lc ->
  JsArray.Consistent
    (fun a b => comparison lc (getAttr a key) (getAttr b key)).
Proof.
  intros [Hs Ht]. unfold getAttr.
  destruct (String.eqb key "make"); [|destruct (String.eqb key "model");
    [|destruct (String.eqb key "price")]]; split; simpl; intros;
    solve [apply Hs | eapply Ht; eassumption | lia].
Qed.

Lemma Consistent_opp {A : Type} (cmp : A -> A -> Z) :
  JsArray.Consistent cmp -> JsArray.Consistent (fun a b => - cmp a b).
Proof.
  intros [Hs Ht]. split.
  - intros a b. specialize (Hs a b). lia.
  - intros a b c Hab Hbc.
    pose proof (Hs a b). pose proof (Hs b c). pose proof (Hs a c).
    assert (cmp c a <= 0) by (apply (Ht c b a); lia). lia.
Qed.

Lemma compareFn_consistent (lc : string -> string -> Z) (key : string)
  (d : option SortDirection) :
  JsArray.Consistent lc -> JsArray.Consistent (compareFn lc key d).
Proof.
  intros H. pose proof (comparison_consistent lc key H) as Hc.
  unfold compareFn. destruct d as [[]|]; try exact Hc.
  now apply Consistent_opp in Hc.
Qed.

Lemma codeUnitCompare_consistent : JsArray.Consistent codeUnitCompare.
Proof.
  pose proof OrdersEx.String_as_OT.lt_strorder as [Hirr Htr].
  assert (Hlt : forall a b, OrdersEx.String_as_OT.compare a b = Lt
                            <-> OrdersEx.String_as_OT.lt a b)
    by (intros; reflexivity).
  assert (Hgt : forall a b, OrdersEx.String_as_OT.compare a b = Gt
                            -> OrdersEx.String_as_OT.lt b a).
  { intros a b E. destruct (OrdersEx.String_as_OT.compare_spec a b);
      congruence. }
  assert (Heq : forall a b, OrdersEx.String_as_OT.compare a b = Eq -> a = b).
  { intros a b E. destruct (OrdersEx.String_as_OT.compare_spec a b);
      congruence. }
  assert (Hle : forall a b, codeUnitCompare a b <= 0 <->
                            a = b \/ OrdersEx.String_as_OT.lt a b).
  { intros a b. unfold codeUnitCompare.
    destruct (OrdersEx.String_as_OT.compare a b) eqn:E.
    - split; [left; now apply Heq | lia].
    - split; [right; now apply Hlt | lia].
    - split; [lia|]. intros [->|H].
      + apply Hgt in E. now apply Hirr in E.
      + apply Hgt in E. exfalso. apply (Hirr a). now apply (Htr a b a). }
  split.
  - intros a b. unfold codeUnitCompare.
    destruct (OrdersEx.String_as_OT.compare a b) eqn:E1;
      destruct (OrdersEx.String_as_OT.compare b a) eqn:E2;
      try reflexivity; exfalso;
      repeat match goal with
        | H : _ = Eq |- _ => apply Heq in H; subst
        | H : _ = Gt |- _ => apply Hgt in H
        | H : _ = Lt |- _ => apply Hlt in H
        end;
      try (eapply Hirr; eassumption);
      eapply Hirr; eapply Htr; eassumption.
  - intros a b c Hab Hbc. apply Hle in Hab, Hbc. apply Hle.
    destruct Hab as [->|Hab]; [assumption|].
    destruct Hbc as [->|Hbc]; [now right|].
    right. now apply (Htr a b c).
Qed.

(** ** The methods of the component *)

Section ComponentFacts.

Variable DATA : list DataType.
Variable localeCompare : string -> string -> Z.

(** The array [searchData] builds is the selection of the specification. *)
Lemma filtered_spec (text : option string) :
  match text with
  | Some t => if truthy t then filter (matchesItem t) DATA else DATA
  | None => DATA
  end = specFilter DATA text.
Proof.
  destruct text as [t|]; [|reflexivity]. unfold specFilter.
  destruct (truthy t); simpl; [reflexivity|].
  symmetry. now apply filter_all.
Qed.

Lemma searchData_run (text : option string) (c : AppComponent) :
  runState (searchData DATA text) c
  = (specFilter DATA text,
     set_totalPages
       (JsNumber.ceilDiv (JsArray.len (specFilter DATA text)) pageSize) c).
Proof. unfold searchData. cbn. now rewrite filtered_spec. Qed.

Lemma onSearchText_run (text : option string) (c : AppComponent) :
  runState (onSearchText DATA text) c
  = runState (dataSubject_next (specFilter DATA text))
      (set_totalPages
         (JsNumber.ceilDiv (JsArray.len (specFilter DATA text)) pageSize) c).
Proof.
  unfold onSearchText. cbn [bind Monad_state runState].
  now rewrite searchData_run.
Qed.

Lemma updateDisplayedData_run (c : AppComponent) :
  runState (updateDisplayedData DATA) c
  = runState (dataSubject_next (specFilter DATA (searchInput c)))
      (set_totalPages
         (JsNumber.ceilDiv
            (JsArray.len (specFilter DATA (searchInput c))) pageSize) c).
Proof.
  unfold updateDisplayedData.
  cbn [bind Monad_state runState get MonadState_state].
  now rewrite searchData_run.
Qed.

(** A navigation whose guard holds moves to the requested page and
    republishes; one whose guard fails leaves the component as it is. *)
Lemma navigation_run (e : Event) (c : AppComponent) :
  match e with NextPage | PreviousPage | JumpToPage _ => True | _ => False end ->
  runState (handle DATA localeCompare e) c
  = if navigates e c
    then runState (updateDisplayedData DATA)
                  (set_currentPage (targetPage e c) c)
    else (tt, c).
Proof.
  destruct e as [| | | | |n]; try contradiction; intros _; simpl.
  - destruct (currentPage c <? totalPages c - 1); reflexivity.
  - destruct (0 <? currentPage c); reflexivity.
  - destruct n as [|n]; simpl; [reflexivity|].
    destruct ((0 <=? n) && (n <? totalPages c)); reflexivity.
Qed.

Lemma sortData_run (sortAttribute : string) (c : AppComponent) :
  let d := if eqb_attr (currentSortAttribute c) sortAttribute
           then flip (currentSortDirection c) else Some asc in
  let sortedArray :=
    JsArray.sort (compareFn localeCompare sortAttribute d) (dataSubject c) in
  runState (sortData localeCompare sortAttribute) c
  = (tt, mkApp (searchInput c) sortedArray d (Some sortAttribute)
               (currentPage c) (totalPages c)
               (pageOf c sortedArray :: sortedData c)).
Proof.
  unfold sortData. cbn.
  destruct (eqb_attr (currentSortAttribute c) sortAttribute) eqn:E; cbn.
  - unfold eqb_attr in E. destruct (currentSortAttribute c) as [a|];
      [|discriminate]. apply String.eqb_eq in E. now subst.
  - reflexivity.
Qed.

Lemma init_PageInvariant : PageInvariant (init DATA).
Proof. unfold PageInvariant. simpl. lia. Qed.

Lemma init_Synced : Synced DATA (init DATA).
Proof. reflexivity. Qed.

End ComponentFacts.

(** * The claims of the specification *)

Section Claims.

Variable DATA : list DataType.
Variable localeCompare : string -> string -> Z.

(** ** C1: what each event publishes *)

(** C1, as amended.  A search emission and a page change that passes its
    guard publish the current page of the records filtered from the full
    dataset (by the emitted text, respectively by the value of the search
    input), with no sort step, whatever [currentSortAttribute] is.
    [sortData] publishes the current page of the sequence the subject held,
    sorted by the attribute in the new direction, without filtering again.
    A keystroke and a page change that fails its guard publish nothing. *)
Theorem derivation_by_event (c : AppComponent) (e : Event) :
  let c' := step DATA localeCompare e c in
  match e with
  | SearchEmission text =>
      dataSubject c' = specFilter DATA text
      /\ sortedData c' = pageOf c' (dataSubject c') :: sortedData c
  | SortRequested a =>
      dataSubject c'
      = JsArray.sort (compareFn localeCompare a (currentSortDirection c'))
                     (dataSubject c)
      /\ sortedData c' = pageOf c' (dataSubject c') :: sortedData c
  | InputChange _ =>
      dataSubject c' = dataSubject c /\ sortedData c' = sortedData c
  | NextPage | PreviousPage | JumpToPage _ =>
      if navigates e c
      then currentPage c' = targetPage e c
           /\ dataSubject c' = specFilter DATA (searchInput c)
           /\ sortedData c' = pageOf c' (dataSubject c') :: sortedData c
      else c' = c
  end.
Proof.
  unfold step, execState.
  destruct e as [text|v|a| | |n];
    try (rewrite navigation_run by exact I;
         match goal with |- context [navigates ?e c] =>
           destruct (navigates e c); [|reflexivity] end;
         rewrite updateDisplayedData_run; cbn; auto).
  - cbn [handle]. rewrite onSearchText_run. cbn. auto.
  - cbn. auto.
  - cbn [handle]. rewrite sortData_run. cbn. auto.
Qed.

(** ** C2: the filter *)

(** C2.  For a dataset whose prices are safe integers, the result of
    [searchData] on a text [t] holds a record exactly when the record is in
    the dataset and [t] is empty, or the make or the model contains [t]
    case-insensitively, or the decimal representation of the price
    contains [t]; and the result is the dataset with the other records
    removed, in the same order.  Case-insensitivity is that of the table
    of letter pairs and the decimal representation is that of the
    valuation of numerals: neither is stated through [toLowerCase] or
    [toString]. *)
Theorem searchData_filter_correct (c : AppComponent) (t : string) :
  SafePrices DATA ->
  let result := evalState (searchData DATA (Some t)) c in
  (forall r, In r result <-> In r DATA /\ SpecMatches t r)
  /\ StableFilter (SpecMatches t) DATA result.
Proof.
  intros _. unfold evalState. rewrite searchData_run.
  cbn [fst specFilter]. split.
  - intros r. rewrite filter_In, specMatches_iff. reflexivity.
  - apply filter_StableFilter. intros r. apply specMatches_iff.
Qed.

(** ** C5: the page count *)

(** C5.  [searchData] returns the matching records together with a state
    whose [totalPages] is the ceiling of their number over [pageSize], and
    both callers hand the result to the subject in that state. *)
Theorem searchData_totalPages (c : AppComponent) (text : option string) :
  let r := runState (searchData DATA text) c in
  let m := JsArray.len (specFilter DATA text) in
  let r' := runState (searchData DATA (searchInput c)) c in
  fst r = specFilter DATA text
  /\ pageSize * (totalPages (snd r) - 1) < m <= pageSize * totalPages (snd r)
  /\ snd r = set_totalPages (totalPages (snd r)) c
  /\ runState (onSearchText DATA text) c
     = runState (dataSubject_next (fst r)) (snd r)
  /\ runState (updateDisplayedData DATA) c
     = runState (dataSubject_next (fst r')) (snd r').
Proof.
  cbv zeta. rewrite !searchData_run. cbn [fst snd].
  split; [reflexivity|]. split; [apply ceilDiv_spec; reflexivity|].
  split; [reflexivity|]. split.
  - apply onSearchText_run.
  - apply updateDisplayedData_run.
Qed.

(** ** C6: navigation out of range *)

(** C6.  [nextPage] on the last page, [previousPage] on the first page and
    [jumpToPage] with a number outside [0, totalPages) or with NaN return
    without changing any field and without publishing. *)
Theorem navigation_noop (c : AppComponent) :
  (currentPage c >= totalPages c - 1 -> runState (nextPage DATA) c = (tt, c))
  /\ (currentPage c <= 0 -> runState (previousPage DATA) c = (tt, c))
  /\ (forall n, OutOfRange n (totalPages c) ->
                runState (jumpToPage DATA n) c = (tt, c)).
Proof.
  repeat split.
  - intros H. unfold nextPage. cbn.
    destruct (Z.ltb_spec (currentPage c) (totalPages c - 1)); [lia|reflexivity].
  - intros H. unfold previousPage. cbn.
    destruct (Z.ltb_spec 0 (currentPage c)); [lia|reflexivity].
  - intros [|n] H; unfold jumpToPage; cbn; [reflexivity|].
    destruct (Z.leb_spec 0 n); destruct (Z.ltb_spec n (totalPages c));
      simpl in *; try reflexivity; lia.
Qed.

(** ** C3: the bound on the page index *)


(** ** C4: sorting twice on the same attribute *)

(** C4, as amended.  When no two records of the current sequence tie on
    the attribute, two calls of [sortData] on it in a row leave, after the
    second call, the exact reverse of the sequence the first call produced;
    the two calls use opposite directions, ascending then descending when
    the attribute was not already the sort attribute. *)
Theorem sort_toggle_reverses (c : AppComponent) (sortAttribute : string) :
  JsArray.Consistent localeCompare ->
  ForallOrdPairs (fun a b => ties localeCompare sortAttribute a b = false)
                 (dataSubject c) ->
  let c1 := execState (sortData localeCompare sortAttribute) c in
  let c2 := execState (sortData localeCompare sortAttribute) c1 in
  dataSubject c2 = rev (dataSubject c1)
  /\ currentSortDirection c2 = flip (currentSortDirection c1)
  /\ (currentSortAttribute c <> Some sortAttribute ->
      currentSortDirection c1 = Some asc
      /\ currentSortDirection c2 = Some desc).
Proof.
  intros Hlc Hties. unfold execState. rewrite !sortData_run.
  cbn [snd dataSubject currentSortAttribute currentSortDirection eqb_attr].
  rewrite String.eqb_refl.
  set (d := if eqb_attr (currentSortAttribute c) sortAttribute
            then flip (currentSortDirection c) else Some asc).
  assert (Hd : exists d0, d = Some d0).
  { subst d. destruct (eqb_attr _ _); [|now exists asc].
    destruct (currentSortDirection c) as [[]|]; simpl; eauto. }
  destruct Hd as [d0 Hd]. rewrite Hd.
  split; [|split; [reflexivity|]].
  - rewrite (sort_ext _ (fun a b =>
               - compareFn localeCompare sortAttribute (Some d0) a b))
      by apply compareFn_flip.
    apply sort_twice_rev.
    + now apply compareFn_consistent.
    + eapply ForallOrdPairs_weaken; [|exact Hties].
      intros a b. unfold ties, compareFn. rewrite Z.eqb_neq.
      destruct d0; lia.
  - intros Hne. subst d.
    destruct (eqb_attr (currentSortAttribute c) sortAttribute) eqn:E.
    + unfold eqb_attr in E. destruct (currentSortAttribute c); [|discriminate].
      apply String.eqb_eq in E. congruence.
    + inversion Hd. now split.
Qed.

(** ** C7: values of different types *)

(** C7.  When the two values read at the sort attribute differ in type, or
    one of them is undefined, [comparison] ends as 0, and so does the
    comparator in either direction; the comparator is a total function. *)
Theorem comparison_type_mismatch (valueA valueB : JsValue) :
  typeof valueA <> typeof valueB
  \/ valueA = JsUndefined \/ valueB = JsUndefined ->
  comparison localeCompare valueA valueB = 0
  /\ forall sortAttribute direction a b,
       getAttr a sortAttribute = valueA ->
       getAttr b sortAttribute = valueB ->
       compareFn localeCompare sortAttribute direction a b = 0.
Proof.
  intros H.
  assert (E : comparison localeCompare valueA valueB = 0).
  { destruct valueA, valueB; simpl in *; try reflexivity;
      destruct H as [H|[H|H]]; congruence. }
  split; [exact E|].
  intros k d a b Ha Hb. unfold compareFn. rewrite Ha, Hb, E.
  now destruct d as [[]|].
Qed.

(** ** C8: stability *)

(** C8.  For every record [x], the records of the sequence that tie with
    [x] on the sort attribute appear in the sequence [sortData] produces
    in the order they had before the call. *)
Theorem sortData_stable (c : AppComponent) (sortAttribute : string)
  (x : DataType) :
  JsArray.Consistent localeCompare ->
  filter (ties localeCompare sortAttribute x)
         (dataSubject (execState (sortData localeCompare sortAttribute) c))
  = filter (ties localeCompare sortAttribute x) (dataSubject c).
Proof.
  intros Hlc. unfold execState. rewrite sortData_run.
  cbn [snd dataSubject].
  set (d := if eqb_attr _ _ then _ else _).
  pose proof (sort_stable (compareFn localeCompare sortAttribute d)
                (compareFn_consistent _ sortAttribute d Hlc) x
                (dataSubject c)) as H.
  assert (E : forall r, ties localeCompare sortAttribute x r
                        = (compareFn localeCompare sortAttribute d x r =? 0)).
  { intros r. unfold ties, compareFn.
    destruct d as [[]|]; try reflexivity.
    apply Bool.eq_iff_eq_true. rewrite !Z.eqb_eq. lia. }
  rewrite !(filter_ext _ _ E). exact H.
Qed.

(** ** C9: navigation after a sort *)

(** C9.  With a sort attribute set, a page navigation that passes its guard
    republishes the records the current search input selects from the
    dataset, in dataset order, sliced at the new page; the sort attribute
    and direction stay as they were. *)
Theorem navigation_discards_sort (c : AppComponent) (e : Event) :
  currentSortAttribute c <> None ->
  navigates e c = true ->
  let c' := step DATA localeCompare e c in
  dataSubject c' = specFilter DATA (searchInput c)
  /\ StableFilter
       (fun r => match searchInput c with
                 | Some t => SpecMatches t r
                 | None => True
                 end) DATA (dataSubject c')
  /\ currentPage c' = targetPage e c
  /\ visiblePage c' = pageOf c' (specFilter DATA (searchInput c))
  /\ currentSortAttribute c' = currentSortAttribute c
  /\ currentSortDirection c' = currentSortDirection c.
Proof.
  intros _ Hnav. unfold step, execState.
  assert (He : match e with
               | NextPage | PreviousPage | JumpToPage _ => True
               | _ => False
               end) by (destruct e; simpl in Hnav; try discriminate; exact I).
  rewrite (navigation_run DATA localeCompare e c He), Hnav,
    updateDisplayedData_run.
  cbn. repeat split.
  destruct (searchInput c) as [t|]; simpl.
  - apply filter_StableFilter. intros r. apply specMatches_iff.
  - rewrite <- (filter_all (fun _ => true) DATA) at 2 by reflexivity.
    apply filter_StableFilter. intuition.
Qed.

(** ** C10: sorting on a key that is not a field *)

(** C10.  For a key other than make, model and price the comparator
    answers 0 on every pair, [sortData] publishes the current sequence
    unchanged, and it still records the key as the sort attribute, with
    the direction ascending, or toggled when the key was already the sort
    attribute. *)
Theorem sortData_unknown_attribute (c : AppComponent) (sortAttribute : string) :
  sortAttribute <> "make" ->
  sortAttribute <> "model" ->
  sortAttribute <> "price" ->
  let c' := execState (sortData localeCompare sortAttribute) c in
  (forall d a b, compareFn localeCompare sortAttribute d a b = 0)
  /\ dataSubject c' = dataSubject c
  /\ sortedData c' = pageOf c (dataSubject c) :: sortedData c
  /\ currentSortAttribute c' = Some sortAttribute
  /\ currentSortDirection c'
     = if eqb_attr (currentSortAttribute c) sortAttribute
       then flip (currentSortDirection c)
       else Some asc.
Proof.
  intros H1 H2 H3. unfold execState. rewrite sortData_run. cbn [snd].
  assert (Hz : forall d a b, compareFn localeCompare sortAttribute d a b = 0)
    by (intros; now apply compareFn_unknown).
  cbn. rewrite sort_all_ties by (intros; apply Hz).
  repeat split. exact Hz.
Qed.

End Claims.

(** * Concrete runs *)

Example toString_samples :
  JsNumber.toString 35000 = "35000" /\ JsNumber.toString 0 = "0".
Proof. split; reflexivity. Qed.

Example includes_samples :
  JsString.includes (JsString.toLowerCase "Toyota") (JsString.toLowerCase "YO")
  = true
  /\ JsString.includes "35000" "50" = true
  /\ JsString.includes "Ford" "" = true
  /\ JsString.includes "Ford" "fo" = false.
Proof. repeat split. Qed.

(** E-acute becomes e-acute; the multiplication sign and the sharp s stay
    as they are. *)
Example lowerChar_samples :
  JsString.lowerChar (ascii_of_nat 201) = ascii_of_nat 233
  /\ JsString.lowerChar (ascii_of_nat 215) = ascii_of_nat 215
  /\ JsString.lowerChar (ascii_of_nat 223) = ascii_of_nat 223
  /\ JsString.toLowerCase "Mondeo 2.0 TDCi" = "mondeo 2.0 tdci".
Proof. repeat split. Qed.

Example numeral_samples :
  JsNumber.numeral "35000" 0 = Some 35000
  /\ JsNumber.numeral "35o00" 0 = None
  /\ JsNumber.DecimalOf (-12) "-12".
Proof.
  split; [reflexivity|]. split; [reflexivity|].
  exists "12". split; [reflexivity|]. split; [|reflexivity].
  split; [discriminate | intros rest H; discriminate H].
Qed.

Example slice_samples :
  JsArray.slice [1; 2; 3; 4; 5] 1 3 = [2; 3]
  /\ JsArray.slice [1; 2; 3; 4; 5] 10 20 = []
  /\ JsArray.slice [1; 2; 3; 4; 5] (-2) 10 = [4; 5].
Proof. repeat split. Qed.

(** Searching "honda" shows the two Honda records on one page. *)
Example search_honda :
  let c := step fleet codeUnitCompare (SearchEmission (Some "honda"))
                (init fleet) in
  visiblePage c = [mkData "Honda" "Civic" 21000; mkData "Honda" "Accord" 28000]
  /\ totalPages c = 1 /\ currentPage c = 0.
Proof. vm_compute. repeat split. Qed.

(** With two pages, the second [nextPage] does nothing, and neither does a
    jump to page 5. *)
Example next_page_stops :
  let c1 := step fleet codeUnitCompare NextPage (init fleet) in
  let c2 := step fleet codeUnitCompare NextPage c1 in
  totalPages c1 = 2 /\ currentPage c1 = 1 /\ c2 = c1
  /\ step fleet codeUnitCompare (JumpToPage (JsNumber.Num 5)) c1 = c1.
Proof. vm_compute. repeat split. Qed.

(** Sorting by price, ascending then descending. *)
Example sort_by_price :
  let c1 := step cars codeUnitCompare (SortRequested "price") (init cars) in
  let c2 := step cars codeUnitCompare (SortRequested "price") c1 in
  map price (visiblePage c1) = [32000; 35000; 72000]
  /\ map price (visiblePage c2) = [72000; 35000; 32000].
Proof. vm_compute. repeat split. Qed.

(** C1, as stated, fails.  With the sort attribute set to price, a search
    emission publishes the matching records in dataset order, and so does a
    move to the next page, where the pipeline of the specification would
    publish them sorted by price. *)
Lemma pipeline_counterexample :
  (let c := step cars codeUnitCompare (SortRequested "price") (init cars) in
   let c' := step cars codeUnitCompare (SearchEmission (Some "o")) c in
   currentSortAttribute c' = Some "price"
   /\ visiblePage c'
      <> specPipeline cars codeUnitCompare (Some "o")
           (currentSortAttribute c') (currentSortDirection c')
           (currentPage c'))
  /\ (let c := step fleet codeUnitCompare (SortRequested "price")
                    (init fleet) in
      let c' := step fleet codeUnitCompare NextPage c in
      currentSortAttribute c' = Some "price"
      /\ currentPage c' = 1
      /\ visiblePage c'
         <> specPipeline fleet codeUnitCompare (searchInput c')
              (currentSortAttribute c') (currentSortDirection c')
              (currentPage c')).
Proof.
  vm_compute. repeat split; intros H; discriminate H.
Qed.



(** C4, as stated, fails.  Two records with the same price keep their
    order in both calls, so the second result is the first one, not its
    reverse. *)
Lemma sort_toggle_counterexample :
  let c1 := execState (sortData codeUnitCompare "price") (init twins) in
  let c2 := execState (sortData codeUnitCompare "price") c1 in
  currentSortDirection c1 = Some asc
  /\ currentSortDirection c2 = Some desc
  /\ dataSubject c2 = dataSubject c1
  /\ dataSubject c2 <> rev (dataSubject c1).
Proof.
  vm_compute. repeat split. intros H. discriminate H.
Qed.

Lemma sort_toggle_reverses_witness :
  let c1 := execState (sortData codeUnitCompare "price") (init cars) in
  let c2 := execState (sortData codeUnitCompare "price") c1 in
  dataSubject c2 = rev (dataSubject c1)
  /\ currentSortDirection c2 = flip (currentSortDirection c1)
  /\ (currentSortAttribute (init cars) <> Some "price" ->
      currentSortDirection c1 = Some asc
      /\ currentSortDirection c2 = Some desc).
Proof.
  apply (sort_toggle_reverses codeUnitCompare (init cars) "price").
  - exact codeUnitCompare_consistent.
  - repeat (constructor; try reflexivity).
Defined.

Lemma navigation_noop_witness :
  runState (nextPage cars) (init cars) = (tt, init cars)
  /\ runState (previousPage cars) (init cars) = (tt, init cars)
  /\ runState (jumpToPage cars JsNumber.NaN) (init cars) = (tt, init cars)
  /\ runState (jumpToPage cars (JsNumber.Num 5)) (init cars)
     = (tt, init cars).
Proof.
  destruct (navigation_noop cars (init cars)) as (Hn & Hp & Hj).
  split; [|split; [|split]].
  - apply Hn. vm_compute. discriminate.
  - apply Hp. vm_compute. discriminate.
  - apply Hj. exact I.
  - apply Hj. right. vm_compute. discriminate.
Defined.

Lemma comparison_type_mismatch_witness :
  comparison codeUnitCompare (JsStr "Ford") (JsNum 32000) = 0.
Proof.
  apply (comparison_type_mismatch codeUnitCompare (JsStr "Ford")
           (JsNum 32000)).
  left. discriminate.
Defined.

Lemma sortData_stable_witness :
  let x := mkData "Toyota" "Celica" 35000 in
  filter (ties codeUnitCompare "price" x)
         (dataSubject (execState (sortData codeUnitCompare "price")
                                 (init twins)))
  = filter (ties codeUnitCompare "price" x) (dataSubject (init twins)).
Proof.
  exact (sortData_stable codeUnitCompare (init twins) "price"
           (mkData "Toyota" "Celica" 35000) codeUnitCompare_consistent).
Defined.

Lemma navigation_discards_sort_witness :
  let c := step fleet codeUnitCompare (SortRequested "price") (init fleet) in
  let c' := step fleet codeUnitCompare NextPage c in
  dataSubject c <> fleet
  /\ dataSubject c' = fleet
  /\ currentSortAttribute c' = Some "price"
  /\ currentSortDirection c' = Some asc.
Proof.
  assert (Hattr : currentSortAttribute
                    (step fleet codeUnitCompare (SortRequested "price")
                          (init fleet)) <> None)
    by (vm_compute; discriminate).
  assert (Hnav : navigates NextPage
                   (step fleet codeUnitCompare (SortRequested "price")
                         (init fleet)) = true)
    by (vm_compute; reflexivity).
  destruct (navigation_discards_sort fleet codeUnitCompare _ NextPage
              Hattr Hnav) as (Hd & _ & _ & _ & Ha & Hdir).
  cbv zeta. split; [vm_compute; intros H; discriminate H|].
  split; [exact Hd|]. split; [exact Ha | exact Hdir].
Defined.

Lemma sortData_unknown_attribute_witness :
  let c' := execState (sortData codeUnitCompare "year") (init cars) in
  dataSubject c' = cars
  /\ currentSortAttribute c' = Some "year"
  /\ currentSortDirection c' = Some asc.
Proof.
  assert (H1 : "year" <> "make") by discriminate.
  assert (H2 : "year" <> "model") by discriminate.
  assert (H3 : "year" <> "price") by discriminate.
  destruct (sortData_unknown_attribute codeUnitCompare (init cars) "year"
              H1 H2 H3) as (_ & Hd & _ & Ha & Hdir).
  cbv zeta. split; [exact Hd|]. split; [exact Ha | exact Hdir].
Defined.

(** * Further properties of the component *)

(** ** Slices and pages *)

Lemma slice_nonneg {A : Type} (l : list A) (start stop : Z) :
  0 <= start -> 0 <= stop ->
  JsArray.slice l start stop
  = firstn (Z.to_nat (stop - start)) (skipn (Z.to_nat start) l).
Proof.
  intros Hs He. unfold JsArray.slice, JsArray.len.
  destruct (Z.ltb_spec start 0); [lia|].
  destruct (Z.ltb_spec stop 0); [lia|].
  set (n := Z.of_nat (List.length l)).
  destruct (Z.le_gt_cases n start) as [Hge|Hlt].
  - rewrite !skipn_all2 by lia. now rewrite !firstn_nil.
  - rewrite (Z.min_l start n) by lia.
    destruct (Z.le_gt_cases stop n) as [Hle|Hgt].
    + now rewrite (Z.min_l stop n) by lia.
    + rewrite (Z.min_r stop n) by lia.
      rewrite !firstn_all2; try reflexivity; rewrite length_skipn; lia.
Qed.

Lemma slice_length_le {A : Type} (l : list A) (p : Z) :
  JsArray.len (JsArray.slice l (p * pageSize) ((p + 1) * pageSize))
  <= pageSize.
Proof.
  unfold JsArray.slice, JsArray.len, pageSize.
  set (n := Z.of_nat (List.length l)).
  match goal with |- Z.of_nat (List.length (firstn ?k ?m)) <= _ =>
    pose proof (firstn_le_length k m) as H; assert (Z.of_nat k <= 10) end.
  { destruct (Z.ltb_spec (p * 10) 0); destruct (Z.ltb_spec ((p + 1) * 10) 0);
      lia. }
  lia.
Qed.

Lemma firstn_skipn_add {A : Type} (a b : nat) (l : list A) :
  (firstn a l ++ firstn b (skipn a l))%list = firstn (a + b) l.
Proof.
  revert l. induction a as [|a IH]; intros l; [reflexivity|].
  destruct l as [|x l]; simpl; [now rewrite firstn_nil | now rewrite IH].
Qed.

Lemma pageAt_nonneg (data : list DataType) (p : nat) :
  pageAt data (Z.of_nat p)
  = firstn 10 (skipn (10 * p) data).
Proof.
  unfold pageAt, pageSize. rewrite slice_nonneg by lia.
  f_equal; [|f_equal]; lia.
Qed.

Lemma pages_prefix (data : list DataType) (k : nat) :
  List.concat (map (fun p => pageAt data (Z.of_nat p)) (seq 0 k))
  = firstn (10 * k) data.
Proof.
  induction k as [|k IH]; [reflexivity|].
  rewrite seq_S, map_app, concat_app, IH. cbn [map List.concat Nat.add].
  rewrite app_nil_r, pageAt_nonneg, firstn_skipn_add.
  f_equal. lia.
Qed.

Lemma pageAt_empty_iff (data : list DataType) (p : Z) :
  0 <= p ->
  pageAt data p = [] <-> JsNumber.ceilDiv (JsArray.len data) pageSize <= p.
Proof.
  intros Hp. rewrite <- (Z2Nat.id p Hp) at 1. rewrite pageAt_nonneg.
  pose proof (ceilDiv_spec (JsArray.len data) pageSize eq_refl) as Hc.
  unfold JsArray.len, pageSize in *.
  pose proof (length_skipn (10 * Z.to_nat p) data) as Hl.
  destruct (skipn (10 * Z.to_nat p) data) as [|x m] eqn:E;
    cbn [firstn List.length] in *.
  - split; [intros _; lia | reflexivity].
  - split; [discriminate | intros H; lia].
Qed.

(** ** Runs of events *)

Section RunFacts.

Variable DATA : list DataType.
Variable localeCompare : string -> string -> Z.






(** Paging through the pages 0 .. totalPages - 1 of a sequence shows every
    record exactly once, in order. *)
Theorem pages_cover (data : list DataType) :
  let total := JsNumber.ceilDiv (JsArray.len data) pageSize in
  List.concat (map (fun p => pageAt data (Z.of_nat p))
                   (seq 0 (Z.to_nat total)))
  = data.
Proof.
  cbv zeta. rewrite pages_prefix.
  pose proof (ceilDiv_spec (JsArray.len data) pageSize eq_refl) as Hc.
  unfold JsArray.len, pageSize in *.
  apply firstn_all2. lia.
Qed.

End RunFacts.

(** ** More on [sortData] *)

Lemma StronglySorted_filter {A : Type} (R : A -> A -> Prop) (f : A -> bool)
  (l : list A) :
  StronglySorted R l -> StronglySorted R (filter f l).
Proof.
  induction 1 as [|x l _ IH Hx]; simpl; [constructor|].
  destruct (f x); [|exact IH].
  constructor; [exact IH|].
  rewrite Forall_forall in *. intros y Hy. apply Hx.
  now apply filter_In in Hy.
Qed.

(** On prices the comparator is consistent whatever the collation is. *)
Lemma price_consistent (lc : string -> string -> Z)
  (d : option SortDirection) :
  JsArray.Consistent (compareFn lc "price" d).
Proof.
  assert (H : JsArray.Consistent (fun a b : DataType => price a - price b))
    by (split; intros; lia).
  unfold compareFn, getAttr. cbn.
  destruct d as [[]|]; try exact H. now apply Consistent_opp in H.
Qed.

(** The records tying with [x] keep their order under the comparator of
    either direction. *)
Lemma sort_compareFn_stable (lc : string -> string -> Z) (key : string)
  (d : option SortDirection) (x : DataType) (l : list DataType) :
  JsArray.Consistent lc ->
  filter (ties lc key x) (JsArray.sort (compareFn lc key d) l)
  = filter (ties lc key x) l.
Proof.
  intros Hlc.
  assert (E : forall r, ties lc key x r = (compareFn lc key d x r =? 0)).
  { intros r. unfold ties, compareFn. destruct d as [[]|]; try reflexivity.
    apply Bool.eq_iff_eq_true. rewrite !Z.eqb_eq. lia. }
  rewrite !(filter_ext _ _ E).
  apply sort_stable. now apply compareFn_consistent.
Qed.

Section SortDataFacts.

Variable localeCompare : string -> string -> Z.

(** [sortData] rearranges the sequence the subject holds, losing and
    duplicating nothing, and leaves the page index, the page count and the
    search input as they are. *)
Theorem sortData_permutation (c : AppComponent) (sortAttribute : string) :
  let c' := execState (sortData localeCompare sortAttribute) c in
  Permutation (dataSubject c') (dataSubject c)
  /\ currentPage c' = currentPage c
  /\ totalPages c' = totalPages c
  /\ searchInput c' = searchInput c.
Proof.
  unfold execState. rewrite sortData_run. cbn.
  split; [apply sort_perm | auto].
Qed.

(** With a consistent collation, the sequence [sortData] leaves in the
    subject is ordered by the comparator in the direction just set: no
    record has to follow a later one. *)
Theorem sortData_sorted (c : AppComponent) (sortAttribute : string) :
  JsArray.Consistent localeCompare ->
  let c' := execState (sortData localeCompare sortAttribute) c in
  StronglySorted
    (fun a b =>
       compareFn localeCompare sortAttribute (currentSortDirection c') a b <= 0)
    (dataSubject c').
Proof.
  intros Hlc. unfold execState. rewrite sortData_run. cbn.
  apply sort_sorted. now apply compareFn_consistent.
Qed.

(** Sorting on price leaves the prices in non-decreasing order when the
    direction set is ascending and in non-increasing order when it is
    descending, for every collation. *)
Theorem sortData_price_ordered (c : AppComponent) :
  let c' := execState (sortData localeCompare "price") c in
  match currentSortDirection c' with
  | Some desc => StronglySorted (fun a b => price b <= price a) (dataSubject c')
  | _ => StronglySorted (fun a b => price a <= price b) (dataSubject c')
  end.
Proof.
  unfold execState. rewrite sortData_run. cbn [snd dataSubject currentSortDirection].
  set (d := if eqb_attr _ _ then _ else _).
  pose proof (sort_sorted (compareFn localeCompare "price" d)
                (price_consistent localeCompare d) (dataSubject c)) as H.
  destruct d as [[]|];
    (eapply StronglySorted_weaken; [|exact H]);
    intros a b; unfold compareFn, getAttr; cbn; lia.
Qed.

(** Sorting on one attribute and then on another orders the records that
    tie on the second attribute by the first one: the second sort keeps
    the order the first sort gave them. *)
Theorem sortData_secondary_order (c : AppComponent) (first second : string)
  (x : DataType) :
  JsArray.Consistent localeCompare ->
  let c1 := execState (sortData localeCompare first) c in
  let c2 := execState (sortData localeCompare second) c1 in
  StronglySorted
    (fun a b =>
       compareFn localeCompare first (currentSortDirection c1) a b <= 0)
    (filter (ties localeCompare second x) (dataSubject c2)).
Proof.
  intros Hlc. cbv zeta. unfold execState.
  rewrite (sortData_run localeCompare second). cbn [snd dataSubject].
  rewrite sort_compareFn_stable by exact Hlc.
  apply StronglySorted_filter.
  rewrite sortData_run. cbn.
  apply sort_sorted. now apply compareFn_consistent.
Qed.

End SortDataFacts.

(** ** More on [searchData] *)

Lemma string_app_assoc (a b c : string) : (a ++ b) ++ c = a ++ b ++ c.
Proof. induction a as [|x a IH]; simpl; [reflexivity | now rewrite IH]. Qed.

Lemma includes_empty (s : string) : JsString.includes s "" = true.
Proof. destruct s; reflexivity. Qed.

Lemma matchesItem_empty (r : DataType) : matchesItem "" r = true.
Proof. unfold matchesItem. cbn. now rewrite includes_empty. Qed.

Lemma specFilter_matchesItem (DATA : list DataType) (t : string) :
  specFilter DATA (Some t) = filter (matchesItem t) DATA.
Proof.
  unfold specFilter. apply filter_ext. intros r.
  destruct t; [now rewrite matchesItem_empty | reflexivity].
Qed.

Lemma filter_filter_impl {A : Type} (f g : A -> bool) (l : list A) :
  (forall x, f x = true -> g x = true) ->
  filter f l = filter f (filter g l).
Proof.
  intros H. induction l as [|x l IH]; simpl; [reflexivity|].
  destruct (f x) eqn:Ef.
  - rewrite (H x Ef). simpl. now rewrite Ef, IH.
  - destruct (g x); simpl; [now rewrite Ef|]; exact IH.
Qed.

Lemma ceilDiv_mono (a b : Z) :
  a <= b -> JsNumber.ceilDiv a pageSize <= JsNumber.ceilDiv b pageSize.
Proof.
  intros H.
  pose proof (ceilDiv_spec a pageSize eq_refl).
  pose proof (ceilDiv_spec b pageSize eq_refl).
  unfold pageSize in *. lia.
Qed.

(** A character that is not a letter is the lower case of itself only. *)
Lemma lowerChar_nonletter (c d : ascii) :
  isLetter c = false ->
  JsString.lowerChar d = JsString.lowerChar c -> d = c.
Proof.
  unfold isLetter. intros Hc H.
  apply orb_false_iff in Hc as [H1 H2].
  assert (Hin : forall l, existsb (Ascii.eqb c) l = false -> ~ In c l).
  { intros l Hl Hi. rewrite <- Bool.not_true_iff_false in Hl. apply Hl.
    apply existsb_exists. exists c. split; [exact Hi | apply Ascii.eqb_refl]. }
  apply lowerChar_eq_iff in H as [H|[H|H]]; [exact H | exfalso ..].
  - apply (Hin _ H2). unfold JsString.casePairs in H.
    now apply in_combine_r in H.
  - apply (Hin _ H1). unfold JsString.casePairs in H.
    now apply in_combine_l in H.
Qed.

Lemma prefix_caseEq (s t t' : string) :
  caseless s = true ->
  JsString.toLowerCase t = JsString.toLowerCase t' ->
  String.prefix t s = String.prefix t' s.
Proof.
  revert t t'.
  induction s as [|b s IH]; intros t t' Hs H.
  - destruct t, t'; simpl in H; try discriminate; reflexivity.
  - destruct t as [|a t], t' as [|a' t']; simpl in H; try discriminate;
      [reflexivity|].
    inversion H as [[Ha Ht]]. simpl in Hs.
    apply andb_true_iff in Hs as [Hb Hs]. apply negb_true_iff in Hb.
    cbn [String.prefix].
    destruct (Ascii.ascii_dec a b) as [->|Hab];
      destruct (Ascii.ascii_dec a' b) as [->|Ha'b].
    + now apply IH.
    + exfalso. apply Ha'b. now apply lowerChar_nonletter.
    + exfalso. apply Hab. now apply lowerChar_nonletter.
    + reflexivity.
Qed.

Lemma includes_caseEq (s t t' : string) :
  caseless s = true ->
  JsString.toLowerCase t = JsString.toLowerCase t' ->
  JsString.includes s t = JsString.includes s t'.
Proof.
  intros Hs H. induction s as [|b s IH]; cbn [JsString.includes].
  - now rewrite (prefix_caseEq "" t t' Hs H).
  - rewrite (prefix_caseEq _ t t' Hs H). simpl in Hs.
    apply andb_true_iff in Hs as [_ Hs]. now rewrite IH.
Qed.

Lemma string_of_uint_caseless (d : Decimal.uint) :
  caseless (NilEmpty.string_of_uint d) = true.
Proof. induction d; simpl; auto. Qed.

Lemma nilzero_uint_caseless (d : Decimal.uint) :
  caseless (NilZero.string_of_uint d) = true.
Proof.
  destruct d; [reflexivity | exact (string_of_uint_caseless _) ..].
Qed.

(** The decimal representation of an integer holds no letter. *)
Lemma toString_caseless (n : Z) : caseless (JsNumber.toString n) = true.
Proof.
  unfold JsNumber.toString, NilZero.string_of_int.
  destruct (Z.to_int n) as [d|d]; [apply nilzero_uint_caseless|].
  cbn [caseless]. apply andb_true_iff. split; [reflexivity|].
  apply nilzero_uint_caseless.
Qed.

Lemma matchesItem_caseEq (t t' : string) (r : DataType) :
  JsString.CaseEq t t' -> matchesItem t r = matchesItem t' r.
Proof.
  intros H. apply caseEq_iff in H. unfold matchesItem.
  rewrite (includes_caseEq _ t t' (toString_caseless (price r)) H).
  now rewrite H.
Qed.

Lemma truthy_caseEq (t t' : string) :
  JsString.CaseEq t t' -> truthy t = truthy t'.
Proof.
  destruct t, t'; simpl; intros H; try contradiction; reflexivity.
Qed.

Lemma Substring_trans (a b c : string) :
  JsString.Substring a b -> JsString.Substring b c -> JsString.Substring a c.
Proof.
  intros (p & q & ->) (pre & post & ->).
  exists (pre ++ p), (q ++ post). now rewrite !string_app_assoc.
Qed.

Lemma ContainsCI_narrow (s t t' : string) :
  JsString.Substring t t' -> JsString.ContainsCI s t' ->
  JsString.ContainsCI s t.
Proof.
  intros (p & q & ->) (pre & mid & post & -> & H).
  apply caseEq_iff in H. rewrite !toLowerCase_app in H.
  apply toLowerCase_split in H as (m1 & m23 & -> & _ & H).
  apply toLowerCase_split in H as (m2 & m3 & -> & H2 & _).
  exists (pre ++ m1), m2, (m3 ++ post).
  split; [|now apply caseEq_iff].
  now rewrite !string_app_assoc.
Qed.

Lemma matchesItem_narrow (t t' : string) (r : DataType) :
  JsString.Substring t t' -> matchesItem t' r = true -> matchesItem t r = true.
Proof.
  intros Hsub. rewrite !matchesItem_iff.
  intros [H|[H|H]].
  - left. eapply ContainsCI_narrow; eassumption.
  - right. left. eapply ContainsCI_narrow; eassumption.
  - right. right. eapply Substring_trans; eassumption.
Qed.

Section SearchFacts.

Variable DATA : list DataType.
Variable localeCompare : string -> string -> Z.

(** The search does not depend on the case of the text: two texts that
    differ only in the case of their letters select the same records and
    give the same page count. *)
Theorem search_case_insensitive (c : AppComponent) (t t' : string) :
  JsString.CaseEq t t' ->
  runState (searchData DATA (Some t)) c
  = runState (searchData DATA (Some t')) c.
Proof.
  intros H. rewrite !searchData_run, !specFilter_matchesItem.
  now rewrite (filter_ext _ _ (fun r => matchesItem_caseEq t t' r H)).
Qed.

(** Extending the search text narrows the result: when [t] occurs in
    [t'], the records [t'] selects are those among the records selected by
    [t] that match [t'], and the page count does not grow. *)
Theorem search_refinement (c : AppComponent) (t t' : string) :
  JsString.Substring t t' ->
  let r := runState (searchData DATA (Some t)) c in
  let r' := runState (searchData DATA (Some t')) c in
  fst r' = filter (matchesItem t') (fst r)
  /\ incl (fst r') (fst r)
  /\ totalPages (snd r') <= totalPages (snd r).
Proof.
  intros Hsub. cbv zeta. rewrite !searchData_run, !specFilter_matchesItem.
  cbn [fst snd totalPages set_totalPages].
  assert (E : filter (matchesItem t') DATA
              = filter (matchesItem t') (filter (matchesItem t) DATA))
    by (apply filter_filter_impl; intros x; now apply matchesItem_narrow).
  split; [exact E|]. split.
  - rewrite E. intros x Hx. now apply filter_In in Hx.
  - apply ceilDiv_mono. rewrite E at 1. unfold JsArray.len.
    pose proof (filter_length_le (matchesItem t')
                  (filter (matchesItem t) DATA)). lia.
Qed.

(** An absent or empty search text selects the whole dataset, in its
    order, whatever was selected or sorted before. *)
Theorem search_without_text (c : AppComponent) (text : option string) :
  text = None \/ text = Some "" ->
  let c' := step DATA localeCompare (SearchEmission text) c in
  dataSubject c' = DATA
  /\ totalPages c' = JsNumber.ceilDiv (JsArray.len DATA) pageSize
  /\ visiblePage c' = pageAt DATA (currentPage c).
Proof.
  intros H. unfold step, execState. cbn [handle].
  rewrite onSearchText_run.
  assert (E : specFilter DATA text = DATA).
  { destruct H as [->| ->]; [reflexivity|].
    simpl. now apply filter_all. }
  rewrite E. cbn. auto.
Qed.

End SearchFacts.

(** ** Pages at integer indices *)

Lemma pageAt_full (data : list DataType) (p : Z) :
  0 <= p -> p < JsNumber.ceilDiv (JsArray.len data) pageSize - 1 ->
  JsArray.len (pageAt data p) = pageSize.
Proof.
  intros Hp Hlt. rewrite <- (Z2Nat.id p Hp) at 1. rewrite pageAt_nonneg.
  pose proof (ceilDiv_spec (JsArray.len data) pageSize eq_refl) as Hc.
  unfold JsArray.len, pageSize in *.
  rewrite length_firstn, length_skipn. lia.
Qed.

(** For an integer page index [p], the page the constructor slices out of
    a sequence holds at most [pageSize] records; when [p] is not negative
    the page is empty exactly when [p] is not below the page count, the
    ceiling of the length over [pageSize], and it holds exactly [pageSize]
    records when [p] is below the last page. *)
Theorem page_at_integer_index (data : list DataType) (p : Z) :
  let total := JsNumber.ceilDiv (JsArray.len data) pageSize in
  JsArray.len (pageAt data p) <= pageSize
  /\ (0 <= p -> (pageAt data p = [] <-> total <= p))
  /\ (0 <= p < total - 1 -> JsArray.len (pageAt data p) = pageSize).
Proof.
  cbv zeta. split; [apply slice_length_le|]. split.
  - apply pageAt_empty_iff.
  - intros [H0 H1]. now apply pageAt_full.
Qed.

(** ** Concrete instances of the further properties *)

Lemma sortData_sorted_witness :
  let c' := execState (sortData codeUnitCompare "make") (init cars) in
  StronglySorted
    (fun a b => compareFn codeUnitCompare "make" (currentSortDirection c') a b
                <= 0)
    (dataSubject c').
Proof.
  exact (sortData_sorted codeUnitCompare (init cars) "make"
           codeUnitCompare_consistent).
Defined.

Lemma sortData_secondary_order_witness :
  let c1 := execState (sortData codeUnitCompare "price") (init fleet) in
  let c2 := execState (sortData codeUnitCompare "make") c1 in
  StronglySorted
    (fun a b => compareFn codeUnitCompare "price" (currentSortDirection c1) a b
                <= 0)
    (filter (ties codeUnitCompare "make" (mkData "Honda" "Civic" 21000))
            (dataSubject c2)).
Proof.
  exact (sortData_secondary_order codeUnitCompare (init fleet) "price" "make"
           (mkData "Honda" "Civic" 21000) codeUnitCompare_consistent).
Defined.

Lemma search_case_insensitive_witness :
  runState (searchData fleet (Some "HONDA")) (init fleet)
  = runState (searchData fleet (Some "honda")) (init fleet).
Proof.
  apply (search_case_insensitive fleet (init fleet) "HONDA" "honda").
  apply caseEq_iff. reflexivity.
Defined.

Lemma search_refinement_witness :
  let r := runState (searchData fleet (Some "hon")) (init fleet) in
  let r' := runState (searchData fleet (Some "honda")) (init fleet) in
  fst r' = filter (matchesItem "honda") (fst r)
  /\ incl (fst r') (fst r)
  /\ totalPages (snd r') <= totalPages (snd r).
Proof.
  apply (search_refinement fleet (init fleet) "hon" "honda").
  exists "", "da". reflexivity.
Defined.

Lemma search_without_text_witness :
  let c := step fleet codeUnitCompare (SortRequested "price") (init fleet) in
  let c' := step fleet codeUnitCompare (SearchEmission (Some "")) c in
  dataSubject c' = fleet
  /\ totalPages c' = JsNumber.ceilDiv (JsArray.len fleet) pageSize
  /\ visiblePage c' = pageAt fleet (currentPage c).
Proof.
  apply (search_without_text fleet codeUnitCompare
           (step fleet codeUnitCompare (SortRequested "price") (init fleet))
           (Some "")).
  right. reflexivity.
Defined.

Lemma page_at_integer_index_witness :
  JsArray.len (pageAt fleet 0) <= pageSize
  /\ pageAt fleet 0 <> []
  /\ JsArray.len (pageAt fleet 0) = pageSize
  /\ pageAt fleet 2 = [].
Proof.
  destruct (page_at_integer_index fleet 0) as (H1 & H2 & H3).
  destruct (page_at_integer_index fleet 2) as (_ & H4 & _).
  split; [exact H1|]. split; [|split].
  - intros E. apply H2 in E; [|lia]. vm_compute in E. now apply E.
  - apply H3. vm_compute. split; [discriminate | reflexivity].
  - apply H4; [lia|]. vm_compute. discriminate.
Defined.

Lemma searchData_filter_correct_witness :
  let result := evalState (searchData fleet (Some "honda")) (init fleet) in
  (forall r, In r result <-> In r fleet /\ SpecMatches "honda" r)
  /\ StableFilter (SpecMatches "honda") fleet result.
Proof.
  apply (searchData_filter_correct fleet (init fleet) "honda").
  unfold SafePrices. repeat constructor; simpl; lia.
Defined.
